(** * Constraints of the type checker (lib/Sema/Constraint.h) and the lazy
    map adapters of the standard library (Map.swift.gyb)

    A shallow embedding of the [Constraint] class, its kind and
    classification enumerations, its constructors and its accessors, and of
    [LazyMapIterator] / [LazyMapSequence], followed by the properties the
    specification states about them.

    Conventions.
    - [assert(e)] is modelled with assertions enabled: a false condition
      aborts the program ([AssertionFailure]).
    - The anonymous union of [Constraint] is a three-armed sum [Payload];
      reading a member of an arm other than the one the constructor wrote is
      [InactiveMember] (the read has no defined value).
    - Member functions run in a small monad that threads the object
      ([*this]) through the call, so that "this accessor does not modify the
      constraint" is a statement about the embedding and not a convention. *)

From Stdlib Require Import NArith ZArith Lia.
From stdpp Require Import base option list strings.

Set Default Proof Using "Type".

(** ** The enumerations *)

(** [enum class ConstraintKind : char], in declaration order. *)
Module ConstraintKind.
Inductive t : Set :=
| Bind
| Equal
| TrivialSubtype
| Subtype
| Conversion
| Construction
| ConformsTo
| ApplicableFunction
| BindOverload
| ValueMember
| TypeMember
| Archetype
| Class
| DynamicLookupValue
| Conjunction
| Disjunction.

#[global] Instance eq_dec : EqDecision t.
Proof. solve_decision. Defined.

(** Every enumerator, in declaration order. *)
Definition all : list t :=
  [Bind; Equal; TrivialSubtype; Subtype; Conversion; Construction;
   ConformsTo; ApplicableFunction; BindOverload; ValueMember; TypeMember;
   Archetype; Class; DynamicLookupValue; Conjunction; Disjunction].
End ConstraintKind.

(** [enum class ConstraintClassification : char]. *)
Module ConstraintClassification.
Inductive t : Set :=
| Relational
| Member
| TypeProperty
| Conjunction
| Disjunction.

#[global] Instance eq_dec : EqDecision t.
Proof. solve_decision. Defined.
End ConstraintClassification.

(** ** Pointers *)

(** A pointer is an address; address 0 is [nullptr].  [ConstraintLocator *]
  and [Constraint *] are never dereferenced by the code of the header, so
  an address is all the embedding needs of them. *)
Definition ptr : Set := N.
Definition nullptr : ptr := 0%N.

(** ** Outcomes of a call *)

Inductive outcome (A : Type) : Type :=
| Returned (a : A)
| AssertionFailure
| InactiveMember.
Arguments Returned {A} a.
Arguments AssertionFailure {A}.
Arguments InactiveMember {A}.

Definition outcome_map {A B} (f : A → B) (o : outcome A) : outcome B :=
match o with
| Returned a => Returned (f a)
| AssertionFailure => AssertionFailure
| InactiveMember => InactiveMember
end.

Section ConstraintModel.
(** [swift::Type], [swift::Identifier] and [OverloadChoice] are declared in
    other headers; the constraint only stores and returns their values. *)
Context {SwiftType Identifier OverloadChoice : Type}.

(** The anonymous union: the [Types] struct, the [Nested] array reference,
    or the [Overload] struct. *)
Inductive Payload : Type :=
| Types (First Second : SwiftType) (Member : Identifier)
| Nested (constraints : list ptr)
| Overload (First : SwiftType) (Choice : OverloadChoice).

Record Constraint : Type := mkConstraint {
  Kind : ConstraintKind.t;
  U : Payload;
  Locator : ptr
}.

(** *** The monad of member functions *)

(** A member function receives the object and, when it returns, yields its
    result together with the object as it left it. *)
Definition Method (A : Type) : Type := Constraint → outcome (A * Constraint).

Definition ret {A} (a : A) : Method A := λ this, Returned (a, this).

Definition bind {A B} (m : Method A) (k : A → Method B) : Method B :=
  λ this,
    match m this with
    | Returned (a, this') => k a this'
    | AssertionFailure => AssertionFailure
    | InactiveMember => InactiveMember
    end.

(** [assert(b)]. *)
Definition assert (b : bool) : Method unit :=
  λ this, if b then Returned (tt, this) else AssertionFailure.

(** The result of a call, the final object dropped. *)
Definition result {A} (m : Method A) (this : Constraint) : outcome A :=
  outcome_map fst (m this).

(** Reads of the data members. *)
Definition read_Kind : Method ConstraintKind.t := λ this, Returned (Kind this, this).
Definition read_Locator : Method ptr := λ this, Returned (Locator this, this).

Definition read_Types_First : Method SwiftType :=
  λ this, match U this with
          | Types first _ _ => Returned (first, this)
          | _ => InactiveMember
          end.
Definition read_Types_Second : Method SwiftType :=
  λ this, match U this with
          | Types _ second _ => Returned (second, this)
          | _ => InactiveMember
          end.
Definition read_Types_Member : Method Identifier :=
  λ this, match U this with
          | Types _ _ member => Returned (member, this)
          | _ => InactiveMember
          end.
Definition read_Nested : Method (list ptr) :=
  λ this, match U this with
          | Nested constraints => Returned (constraints, this)
          | _ => InactiveMember
          end.
Definition read_Overload_First : Method SwiftType :=
  λ this, match U this with
          | Overload first _ => Returned (first, this)
          | _ => InactiveMember
          end.
Definition read_Overload_Choice : Method OverloadChoice :=
  λ this, match U this with
          | Overload _ choice => Returned (choice, this)
          | _ => InactiveMember
          end.
End ConstraintModel.

Arguments Payload : clear implicits.
Arguments Constraint : clear implicits.
Arguments Method : clear implicits.

Declare Scope method_scope.
Delimit Scope method_scope with method.
Notation "x <- m ;; k" := (bind m (λ x, k))
(at level 100, m at next level, right associativity) : method_scope.
Notation "m ;;; k" := (bind m (λ _, k))
(at level 100, right associativity) : method_scope.
Open Scope method_scope.

Section ConstraintCode.
Context {SwiftType Identifier OverloadChoice : Type}.
Local Abbreviation Constraint := (Constraint SwiftType Identifier OverloadChoice).
Local Abbreviation Method := (Method SwiftType Identifier OverloadChoice).
Import ConstraintKind.

(** *** Constructors *)

(** The private constructor of conjunctions and disjunctions:
    [Kind(kind), Nested(disjunction), Locator(locator)], then the assertion
    on [kind]. *)
Definition Constraint_group (kind : ConstraintKind.t) (disjunction : list ptr)
    (locator : ptr) : outcome Constraint :=
  let this := mkConstraint kind (Nested disjunction) locator in
  if bool_decide (kind = Conjunction) || bool_decide (kind = Disjunction)
  then Returned this
  else AssertionFailure.

(** The public constructor of an overload-binding constraint:
    [Kind(ConstraintKind::BindOverload), Overload{type, choice},
    Locator(locator)], with an empty body. *)
Definition Constraint_overload (type : SwiftType) (choice : OverloadChoice)
    (locator : ptr) : outcome Constraint :=
  Returned (mkConstraint BindOverload (Overload type choice) locator).

(** *** Accessors *)

Definition getKind : Method ConstraintKind.t := read_Kind.

Definition getClassification : Method ConstraintClassification.t :=
  kind <- read_Kind ;;
  match kind with
  | Bind
  | Equal
  | TrivialSubtype
  | Subtype
  | Conversion
  | Construction
  | ConformsTo
  | ApplicableFunction
  | BindOverload =>
      ret ConstraintClassification.Relational
  | ValueMember
  | TypeMember =>
      ret ConstraintClassification.Member
  | Archetype
  | Class
  | DynamicLookupValue =>
      ret ConstraintClassification.TypeProperty
  | Conjunction =>
      ret ConstraintClassification.Disjunction
  | Disjunction =>
      ret ConstraintClassification.Disjunction
  end.

(** The condition shared by the assertions of [getFirstType] and
    [getSecondType]:
    [getKind() != Disjunction && getKind() != Conjunction]. *)
Definition not_group : Method bool :=
  k1 <- getKind ;;
  if bool_decide (k1 ≠ Disjunction)
  then k2 <- getKind ;; ret (bool_decide (k2 ≠ Conjunction))
  else ret false.

Definition getFirstType : Method SwiftType :=
  ok <- not_group ;;
  assert ok ;;;
  kind <- getKind ;;
  if bool_decide (kind = BindOverload)
  then read_Overload_First
  else read_Types_First.

Definition getSecondType : Method SwiftType :=
  ok <- not_group ;;
  assert ok ;;;
  read_Types_Second.

Definition getMember : Method Identifier :=
  kind <- read_Kind ;;
  assert (bool_decide (kind = ValueMember) || bool_decide (kind = TypeMember)) ;;;
  read_Types_Member.

(** [static bool hasMember(ConstraintKind kind)]. *)
Definition hasMember (kind : ConstraintKind.t) : bool :=
  bool_decide (kind = ValueMember) || bool_decide (kind = TypeMember).

Definition getNestedConstraints : Method (list ptr) :=
  kind <- read_Kind ;;
  assert (bool_decide (kind = Conjunction) || bool_decide (kind = Disjunction)) ;;;
  read_Nested.

Definition getOverloadChoice : Method OverloadChoice :=
  kind <- read_Kind ;;
  assert (bool_decide (kind = BindOverload)) ;;;
  read_Overload_Choice.

Definition getLocator : Method ptr := read_Locator.
End ConstraintCode.

(** ** Allocation of group constraints in a constraint system *)

Section ConstraintSystemModel.
Context {SwiftType Identifier OverloadChoice : Type}.
Local Abbreviation Constraint := (Constraint SwiftType Identifier OverloadChoice).
Import ConstraintKind.

(** Modelled from the spec: the class [ConstraintSystem] is only forward
    declared in the header.  The specification describes it as the owner of
    an append-only arena that allocates every constraint; the arena is the
    list of the objects allocated so far, the i-th of them (from 0) living at
    address i+1. *)
Record ConstraintSystem : Type := mkConstraintSystem {
  arena : list Constraint
}.

(** Modelled from the spec: the object a [Constraint *] points to in the
    arena of [cs], if any. *)
Definition deref (cs : ConstraintSystem) (p : ptr) : option Constraint :=
  if bool_decide (p = nullptr) then None
  else arena cs !! N.to_nat (N.pred p).

(** Modelled from the spec: the placement
    [operator new(size_t, ConstraintSystem &, size_t)], declared in the
    header and defined elsewhere: the object is appended to the arena and its
    address returned. *)
Definition operator_new (cs : ConstraintSystem) (c : Constraint)
    : ptr * ConstraintSystem :=
  (N.of_nat (S (length (arena cs))), mkConstraintSystem (arena cs ++ [c])).

(** Modelled from the spec: the bodies of [Constraint::createConjunction]
    and [Constraint::createDisjunction] are missing (the header only declares
    them).  Following the specification: the group constraint is allocated in
    the system over an already allocated child list, and the creation fails
    with an assertion on an empty list.  The object itself is built by the
    private constructor of the header. *)
Definition createGroup (kind : ConstraintKind.t) (cs : ConstraintSystem)
    (constraints : list ptr) (locator : ptr) : outcome (ptr * ConstraintSystem) :=
  if bool_decide (constraints = []) then AssertionFailure
  else outcome_map (operator_new cs) (Constraint_group kind constraints locator).

Definition createConjunction := createGroup Conjunction.
Definition createDisjunction := createGroup Disjunction.
End ConstraintSystemModel.

Arguments ConstraintSystem : clear implicits.

(** ** The lazy map adapters (Map.swift.gyb) *)

(** [protocol IteratorProtocol]: [mutating func next() -> Element?] returns
    the element, if any, and the iterator as the call left it. *)
Class IteratorProtocol (Iterator Element : Type) : Type :=
  next : Iterator → option Element * Iterator.
Global Hint Mode IteratorProtocol ! - : typeclass_instances.

(** [protocol Sequence]: [func makeIterator() -> Iterator]. *)
Class Sequence (Seq Iterator : Type) : Type :=
  makeIterator : Seq → Iterator.
Global Hint Mode Sequence ! - : typeclass_instances.

Module LazyMapIterator.
Record t (Base BaseElement Element : Type) : Type := mk {
  _base : Base;
  _transform : BaseElement → Element
}.
Arguments mk {Base BaseElement Element} _ _.
Arguments _base {Base BaseElement Element} _.
Arguments _transform {Base BaseElement Element} _ _.

(** [return _base.next().map(_transform)]; the call advances the stored base
    iterator. *)
Definition next_ {Base BaseElement Element}
    `{!IteratorProtocol Base BaseElement}
    (self : t Base BaseElement Element) : option Element * t Base BaseElement Element :=
  let '(element, base') := next (_base self) in
  (_transform self <$> element, mk base' (_transform self)).

(** [public var base: Base]. *)
Definition base {Base BaseElement Element} (self : t Base BaseElement Element)
    : Base := _base self.
End LazyMapIterator.

#[export] Instance LazyMapIterator_IteratorProtocol {Base BaseElement Element}
    `{!IteratorProtocol Base BaseElement}
    : IteratorProtocol (LazyMapIterator.t Base BaseElement Element) Element :=
  LazyMapIterator.next_.

Module LazyMapSequence.
Record t (Base BaseElement Element : Type) : Type := mk {
  _base : Base;
  _transform : BaseElement → Element
}.
Arguments mk {Base BaseElement Element} _ _.
Arguments _base {Base BaseElement Element} _.
Arguments _transform {Base BaseElement Element} _ _.

(** [internal init(_base:transform:)]. *)
Definition init {Base BaseElement Element} (_base : Base)
    (transform : BaseElement → Element) : t Base BaseElement Element :=
  mk _base transform.

(** [return LazyMapIterator(_base: _base.makeIterator(), _transform: _transform)]. *)
Definition makeIterator_ {Base BaseIterator BaseElement Element}
    `{!Sequence Base BaseIterator}
    (self : t Base BaseElement Element)
    : LazyMapIterator.t BaseIterator BaseElement Element :=
  LazyMapIterator.mk (makeIterator (_base self)) (_transform self).
End LazyMapSequence.

#[export] Instance LazyMapSequence_Sequence {Base BaseIterator BaseElement Element}
    `{!Sequence Base BaseIterator}
    : Sequence (LazyMapSequence.t Base BaseElement Element)
               (LazyMapIterator.t BaseIterator BaseElement Element) :=
  LazyMapSequence.makeIterator_.

(** *** Observing an iterator *)

(** The results of [n] successive calls of [next()]. *)
Fixpoint nexts {Iterator Element} `{!IteratorProtocol Iterator Element}
    (n : nat) (it : Iterator) : list (option Element) :=
  match n with
  | 0 => []
  | S n' => let '(element, it') := next it in element :: nexts n' it'
  end.

(** The elements an iterator yields up to its first [nil], as a [for]-[in]
    loop consumes it; [None] when [nil] is not reached within [fuel] calls. *)
Fixpoint elements {Iterator Element} `{!IteratorProtocol Iterator Element}
    (fuel : nat) (it : Iterator) : option (list Element) :=
  match fuel with
  | 0 => None
  | S fuel' =>
      match next it with
      | (None, _) => Some []
      | (Some x, it') => cons x <$> elements fuel' it'
      end
  end.

(** A base to run the adapters on: an array iterated from its front, which
    is its own iterator. *)
#[export] Instance list_IteratorProtocol {A} : IteratorProtocol (list A) A :=
  λ l, match l with
       | [] => (None, [])
       | x :: l' => (Some x, l')
       end.

#[export] Instance list_Sequence {A} : Sequence (list A) (list A) := λ l, l.

(** *** The rest of the sequence adapter *)

(** [var underestimatedCount: Int] of [Sequence]. *)
Class UnderestimatedCount (Seq : Type) : Type :=
  underestimatedCount : Seq → Z.

(** [LazyMapSequence.underestimatedCount]:
    [return _base.underestimatedCount]. *)
#[export] Instance LazyMapSequence_UnderestimatedCount
    {Base BaseElement Element} `{!UnderestimatedCount Base}
    : UnderestimatedCount (LazyMapSequence.t Base BaseElement Element) :=
  λ self, underestimatedCount (LazyMapSequence._base self).

(** [extension LazySequenceProtocol]: the protocol gives every lazy sequence
    its [elements]; [map] wraps them. *)
Module LazySequenceProtocol.
Class t (Self Elements : Type) : Type :=
  elements : Self → Elements.
Global Hint Mode t ! - : typeclass_instances.

(** [return LazyMapSequence(_base: self.elements, transform: transform)]. *)
Definition map {Self Elements BaseElement U} `{!t Self Elements}
    (self : Self) (transform : BaseElement → U)
    : LazyMapSequence.t Elements BaseElement U :=
  LazyMapSequence.init (elements self) transform.
End LazySequenceProtocol.

(** The iterator as [n] calls of [next()] leave it. *)
Fixpoint advance {Iterator Element} `{!IteratorProtocol Iterator Element}
    (n : nat) (it : Iterator) : Iterator :=
  match n with
  | 0 => it
  | S n' => advance n' (next it).2
  end.

(** The contract stated with [next()]: once [nil] has been returned, all
    subsequent calls return [nil]. *)
Definition nil_is_final {Iterator Element}
    `{!IteratorProtocol Iterator Element} (it : Iterator) : Prop :=
  ∀ n i j, i ≤ j → j < n →
    nexts n it !! i = Some None → nexts n it !! j = Some None.

(** *** The collection adapters *)

(** The members of [Collection] that the adapters call on their base.
    [subscript] is [None] where the base's precondition on the position
    fails; index distances are integers. *)
Module Collection.
Class t (C Index Element Indices : Type) : Type := {
  startIndex : C → Index;
  endIndex : C → Index;
  index_after : C → Index → Index;
  formIndex_after : C → Index → Index;
  subscript : C → Index → option Element;
  indices : C → Indices;
  isEmpty : C → bool;
  count : C → Z;
  first : C → option Element;
  index_offsetBy : C → Index → Z → Index;
  index_offsetBy_limitedBy : C → Index → Z → Index → option Index;
  distance : C → Index → Index → Z
}.
Global Hint Mode t ! - - - : typeclass_instances.
End Collection.

(** The members [BidirectionalCollection] adds. *)
Module BidirectionalCollection.
Class t (C Index Element : Type) : Type := {
  index_before : C → Index → Index;
  formIndex_before : C → Index → Index;
  last : C → option Element
}.
Global Hint Mode t ! - - : typeclass_instances.
End BidirectionalCollection.

(** The struct the template generates for each traversal
    ([LazyMapCollection], [LazyMapBidirectionalCollection],
    [LazyMapRandomAccessCollection]): the three have the same members, the
    last two with the bidirectional ones in addition. *)
Module LazyMapCollection.
Record t (Base BaseElement Element : Type) : Type := mk {
  _base : Base;
  _transform : BaseElement → Element
}.
Arguments mk {Base BaseElement Element} _ _.
Arguments _base {Base BaseElement Element} _.
Arguments _transform {Base BaseElement Element} _ _.

(** [internal init(_base:transform:)]. *)
Definition init {Base BaseElement Element} (_base : Base)
    (transform : BaseElement → Element) : t Base BaseElement Element :=
  mk _base transform.

Section Members.
Context {Base Index BaseElement Indices Element : Type}.
Context `{!Collection.t Base Index BaseElement Indices}.
Implicit Types (self : t Base BaseElement Element).

Definition startIndex self : Index := Collection.startIndex (_base self).
Definition endIndex self : Index := Collection.endIndex (_base self).
Definition index_after self (i : Index) : Index :=
  Collection.index_after (_base self) i.
Definition formIndex_after self (i : Index) : Index :=
  Collection.formIndex_after (_base self) i.

(** [return _transform(_base[position])]. *)
Definition subscript self (position : Index) : option Element :=
  _transform self <$> Collection.subscript (_base self) position.

Definition indices self : Indices := Collection.indices (_base self).
Definition isEmpty self : bool := Collection.isEmpty (_base self).
Definition count self : Z := Collection.count (_base self).

(** [return _base.first.map(_transform)]. *)
Definition first self : option Element :=
  _transform self <$> Collection.first (_base self).

Definition index_offsetBy self (i : Index) (n : Z) : Index :=
  Collection.index_offsetBy (_base self) i n.
Definition index_offsetBy_limitedBy self (i : Index) (n : Z) (limit : Index)
    : option Index :=
  Collection.index_offsetBy_limitedBy (_base self) i n limit.
Definition distance self (start end_ : Index) : Z :=
  Collection.distance (_base self) start end_.
End Members.

Section BidirectionalMembers.
Context {Base Index BaseElement Element : Type}.
Context `{!BidirectionalCollection.t Base Index BaseElement}.
Implicit Types (self : t Base BaseElement Element).

Definition index_before self (i : Index) : Index :=
  BidirectionalCollection.index_before (_base self) i.
Definition formIndex_before self (i : Index) : Index :=
  BidirectionalCollection.formIndex_before (_base self) i.

(** [return _base.last.map(_transform)]. *)
Definition last self : option Element :=
  _transform self <$> BidirectionalCollection.last (_base self).
End BidirectionalMembers.

(** [return LazyMapIterator(_base: _base.makeIterator(), _transform: _transform)]. *)
Definition makeIterator_ {Base BaseIterator BaseElement Element}
    `{!Sequence Base BaseIterator} (self : t Base BaseElement Element)
    : LazyMapIterator.t BaseIterator BaseElement Element :=
  LazyMapIterator.mk (makeIterator (_base self)) (_transform self).

(** [return _base.underestimatedCount]. *)
Definition underestimatedCount_ {Base BaseElement Element}
    `{!UnderestimatedCount Base} (self : t Base BaseElement Element) : Z :=
  underestimatedCount (_base self).
End LazyMapCollection.

#[export] Instance LazyMapCollection_Collection
    {Base Index BaseElement Indices Element}
    `{!Collection.t Base Index BaseElement Indices}
    : Collection.t (LazyMapCollection.t Base BaseElement Element)
                   Index Element Indices := {|
  Collection.startIndex := LazyMapCollection.startIndex;
  Collection.endIndex := LazyMapCollection.endIndex;
  Collection.index_after := LazyMapCollection.index_after;
  Collection.formIndex_after := LazyMapCollection.formIndex_after;
  Collection.subscript := LazyMapCollection.subscript;
  Collection.indices := LazyMapCollection.indices;
  Collection.isEmpty := LazyMapCollection.isEmpty;
  Collection.count := LazyMapCollection.count;
  Collection.first := LazyMapCollection.first;
  Collection.index_offsetBy := LazyMapCollection.index_offsetBy;
  Collection.index_offsetBy_limitedBy :=
    LazyMapCollection.index_offsetBy_limitedBy;
  Collection.distance := LazyMapCollection.distance
|}.

#[export] Instance LazyMapCollection_BidirectionalCollection
    {Base Index BaseElement Element}
    `{!BidirectionalCollection.t Base Index BaseElement}
    : BidirectionalCollection.t (LazyMapCollection.t Base BaseElement Element)
                                Index Element := {|
  BidirectionalCollection.index_before := LazyMapCollection.index_before;
  BidirectionalCollection.formIndex_before :=
    LazyMapCollection.formIndex_before;
  BidirectionalCollection.last := LazyMapCollection.last
|}.

#[export] Instance LazyMapCollection_Sequence
    {Base BaseIterator BaseElement Element} `{!Sequence Base BaseIterator}
    : Sequence (LazyMapCollection.t Base BaseElement Element)
               (LazyMapIterator.t BaseIterator BaseElement Element) :=
  LazyMapCollection.makeIterator_.

#[export] Instance LazyMapCollection_UnderestimatedCount
    {Base BaseElement Element} `{!UnderestimatedCount Base}
    : UnderestimatedCount (LazyMapCollection.t Base BaseElement Element) :=
  LazyMapCollection.underestimatedCount_.

(** [extension LazyCollectionProtocol]: [map] wraps the collection's
    [elements]. *)
Module LazyCollectionProtocol.
(** [return LazyMap...Collection(_base: self.elements, transform: transform)]. *)
Definition map {Self Elements BaseElement U}
    `{!LazySequenceProtocol.t Self Elements}
    (self : Self) (transform : BaseElement → U)
    : LazyMapCollection.t Elements BaseElement U :=
  LazyMapCollection.init (LazySequenceProtocol.elements self) transform.
End LazyCollectionProtocol.

(** *** Observing a collection *)

(** The elements read by subscript from the position [i] up to [endIndex],
    stepping with [index(after:)]; [None] when the end is not reached within
    [fuel] steps or a subscript fails. *)
Fixpoint subscripts {C Index Element Indices}
    `{!Collection.t C Index Element Indices} `{!EqDecision Index}
    (fuel : nat) (c : C) (i : Index) : option (list Element) :=
  match fuel with
  | 0 => None
  | S fuel' =>
      if decide (i = Collection.endIndex c) then Some []
      else match Collection.subscript c i with
           | None => None
           | Some x => cons x <$> subscripts fuel' c (Collection.index_after c i)
           end
  end.

(** A base to run the collection adapters on: an array, indexed from 0. *)
#[export] Instance list_Collection {A} : Collection.t (list A) nat A (list nat) := {|
  Collection.startIndex _ := 0;
  Collection.endIndex l := length l;
  Collection.index_after _ i := S i;
  Collection.formIndex_after _ i := S i;
  Collection.subscript l i := l !! i;
  Collection.indices l := seq 0 (length l);
  Collection.isEmpty l := match l with [] => true | _ => false end;
  Collection.count l := Z.of_nat (length l);
  Collection.first l := head l;
  Collection.index_offsetBy _ i n := Z.to_nat (Z.of_nat i + n);
  Collection.index_offsetBy_limitedBy _ i n limit :=
    let j := (Z.of_nat i + n)%Z in
    if bool_decide (0 ≤ n ∧ Z.of_nat i ≤ Z.of_nat limit < j
                    ∨ n < 0 ∧ j < Z.of_nat limit ≤ Z.of_nat i)%Z
    then None else Some (Z.to_nat j);
  Collection.distance _ i j := (Z.of_nat j - Z.of_nat i)%Z
|}.

#[export] Instance list_BidirectionalCollection {A}
    : BidirectionalCollection.t (list A) nat A := {|
  BidirectionalCollection.index_before _ i := pred i;
  BidirectionalCollection.formIndex_before _ i := pred i;
  BidirectionalCollection.last l := last l
|}.

#[export] Instance list_UnderestimatedCount {A} : UnderestimatedCount (list A) :=
  λ l, Z.of_nat (length l).

(** ** Constraints that a constructor of the header returns *)

Definition constructed {SwiftType Identifier OverloadChoice}
    (c : Constraint SwiftType Identifier OverloadChoice) : Prop :=
  (∃ kind constraints locator,
     Constraint_group kind constraints locator = Returned c) ∨
  (∃ type choice locator,
     Constraint_overload type choice locator = Returned c).

(** ** What the specification promises of a classification *)

(** The classification column of the table of kinds in the specification,
    row by row. *)
Definition classification_table (kind : ConstraintKind.t)
    : ConstraintClassification.t :=
  match kind with
  | ConstraintKind.Bind => ConstraintClassification.Relational
  | ConstraintKind.Equal => ConstraintClassification.Relational
  | ConstraintKind.TrivialSubtype => ConstraintClassification.Relational
  | ConstraintKind.Subtype => ConstraintClassification.Relational
  | ConstraintKind.Conversion => ConstraintClassification.Relational
  | ConstraintKind.Construction => ConstraintClassification.Relational
  | ConstraintKind.ConformsTo => ConstraintClassification.Relational
  | ConstraintKind.ApplicableFunction => ConstraintClassification.Relational
  | ConstraintKind.BindOverload => ConstraintClassification.Relational
  | ConstraintKind.ValueMember => ConstraintClassification.Member
  | ConstraintKind.TypeMember => ConstraintClassification.Member
  | ConstraintKind.Archetype => ConstraintClassification.TypeProperty
  | ConstraintKind.Class => ConstraintClassification.TypeProperty
  | ConstraintKind.DynamicLookupValue => ConstraintClassification.TypeProperty
  | ConstraintKind.Conjunction => ConstraintClassification.Conjunction
  | ConstraintKind.Disjunction => ConstraintClassification.Disjunction
  end.

(** A member function is read-only when every call that returns leaves the
    object as it found it, so that the same call made again returns the same
    value. *)
Definition readonly {SwiftType Identifier OverloadChoice A}
    (m : Method SwiftType Identifier OverloadChoice A) : Prop :=
  ∀ this a this',
    m this = Returned (a, this') →
    this' = this ∧ m this' = Returned (a, this').

(** * Properties *)

Section MethodFacts.
Context {SwiftType Identifier OverloadChoice : Type}.
Local Abbreviation Constraint := (Constraint SwiftType Identifier OverloadChoice).
Local Abbreviation Method := (Method SwiftType Identifier OverloadChoice).
Implicit Types (this c : Constraint).

Lemma bind_Returned {A B} (m : Method A) (k : A → Method B) this a this' :
  m this = Returned (a, this') → bind m k this = k a this'.
Proof. unfold bind. by intros ->. Qed.

Lemma bind_inv {A B} (m : Method A) (k : A → Method B) this b this'' :
  bind m k this = Returned (b, this'') →
  ∃ a this', m this = Returned (a, this') ∧ k a this' = Returned (b, this'').
Proof.
  unfold bind. destruct (m this) as [[a this']| |]; [|done..].
  intros Hk. by exists a, this'.
Qed.

Lemma readonly_ret {A} (a : A) : readonly (ret a : Method A).
Proof. intros this a' this' [= <- <-]. done. Qed.

Lemma readonly_assert b : readonly (assert b : Method unit).
Proof.
  intros this [] this'. unfold assert. destruct b; [|done].
  by intros [= <-].
Qed.

Lemma readonly_bind {A B} (m : Method A) (k : A → Method B) :
  readonly m → (∀ a, readonly (k a)) → readonly (bind m k).
Proof.
  intros Hm Hk this b this'' (a & this' & Ha & Hb)%bind_inv.
  destruct (Hm _ _ _ Ha) as [-> _].
  destruct (Hk _ _ _ _ Hb) as [-> _].
  split; [done|]. by rewrite (bind_Returned _ _ _ _ _ Ha).
Qed.

Lemma readonly_read_Kind : readonly (read_Kind : Method _).
Proof. by intros this a this' [= <- <-]. Qed.

Lemma readonly_read_Locator : readonly (read_Locator : Method _).
Proof. by intros this a this' [= <- <-]. Qed.

Lemma readonly_read_Types_First : readonly (read_Types_First : Method _).
Proof.
  intros this a this'. unfold read_Types_First.
  destruct (U this) eqn:E; [|done..]. intros [= <- <-]. by rewrite E.
Qed.

Lemma readonly_read_Types_Second : readonly (read_Types_Second : Method _).
Proof.
  intros this a this'. unfold read_Types_Second.
  destruct (U this) eqn:E; [|done..]. intros [= <- <-]. by rewrite E.
Qed.

Lemma readonly_read_Types_Member : readonly (read_Types_Member : Method _).
Proof.
  intros this a this'. unfold read_Types_Member.
  destruct (U this) eqn:E; [|done..]. intros [= <- <-]. by rewrite E.
Qed.

Lemma readonly_read_Nested : readonly (read_Nested : Method _).
Proof.
  intros this a this'. unfold read_Nested.
  destruct (U this) eqn:E; [done| |done]. intros [= <- <-]. by rewrite E.
Qed.

Lemma readonly_read_Overload_First : readonly (read_Overload_First : Method _).
Proof.
  intros this a this'. unfold read_Overload_First.
  destruct (U this) eqn:E; [done..|]. intros [= <- <-]. by rewrite E.
Qed.

Lemma readonly_read_Overload_Choice : readonly (read_Overload_Choice : Method _).
Proof.
  intros this a this'. unfold read_Overload_Choice.
  destruct (U this) eqn:E; [done..|]. intros [= <- <-]. by rewrite E.
Qed.

Lemma readonly_if {A} (b : bool) (m1 m2 : Method A) :
  readonly m1 → readonly m2 → readonly (if b then m1 else m2).
Proof. by destruct b. Qed.

Lemma readonly_getKind : readonly (getKind : Method _).
Proof. apply readonly_read_Kind. Qed.

Lemma readonly_not_group : readonly (not_group : Method _).
Proof.
  apply readonly_bind; [apply readonly_getKind|]. intros k1.
  apply readonly_if; [|apply readonly_ret].
  apply readonly_bind; [apply readonly_getKind|]. intros k2. apply readonly_ret.
Qed.
End MethodFacts.

Create HintDb readonly discriminated.
#[global] Hint Resolve readonly_ret readonly_assert readonly_bind readonly_if
  readonly_read_Kind readonly_read_Locator readonly_read_Types_First
  readonly_read_Types_Second readonly_read_Types_Member readonly_read_Nested
  readonly_read_Overload_First readonly_read_Overload_Choice
  readonly_getKind readonly_not_group : readonly.

Section ConstraintFacts.
Context {SwiftType Identifier OverloadChoice : Type}.
Local Abbreviation Constraint := (Constraint SwiftType Identifier OverloadChoice).
Local Abbreviation Method := (Method SwiftType Identifier OverloadChoice).
Local Abbreviation ConstraintSystem :=
  (ConstraintSystem SwiftType Identifier OverloadChoice).
Implicit Types (this c : Constraint) (kind : ConstraintKind.t)
  (locator : ptr) (constraints : list ptr).

(** *** Classification *)

(** [getClassification] returns on every constraint, leaves it alone, and its
    value depends on the kind only. *)
Lemma getClassification_total c :
  ∃ cl, getClassification c = Returned (cl, c) ∧
        ∀ c', Kind c' = Kind c → getClassification c' = Returned (cl, c').
Proof.
  unfold getClassification, bind, read_Kind, ret.
  destruct (Kind c) eqn:E; eexists; (split; [done|]); by intros c' ->.
Qed.

(** On the fifteen kinds other than [Conjunction] the switch agrees with the
    table of the specification. *)
Lemma getClassification_table_except_Conjunction c :
  Kind c ≠ ConstraintKind.Conjunction →
  getClassification c = Returned (classification_table (Kind c), c).
Proof.
  unfold getClassification, bind, read_Kind, ret.
  by destruct (Kind c).
Qed.

(** C1. The specification's table classifies the kind [Conjunction] as
    [Conjunction]; the switch of [getClassification] returns
    [ConstraintClassification::Disjunction] in that case.  On every
    conjunction built by the group constructor, whatever its children and
    locator, the accessor returns [Disjunction], which is not the table's
    entry. *)
Theorem getClassification_Conjunction_returns_Disjunction constraints locator :
  ∃ c, Constraint_group ConstraintKind.Conjunction constraints locator = Returned c ∧
       getClassification c = Returned (ConstraintClassification.Disjunction, c) ∧
       classification_table (Kind c) = ConstraintClassification.Conjunction ∧
       result getClassification c ≠ Returned (classification_table (Kind c)).
Proof. eexists. by repeat split. Qed.

(** *** Accessors of the wrong payload *)

Lemma not_group_value c :
  not_group c =
  Returned (bool_decide (Kind c ≠ ConstraintKind.Disjunction) &&
            bool_decide (Kind c ≠ ConstraintKind.Conjunction), c).
Proof.
  unfold not_group, bind, getKind, read_Kind, ret.
  by destruct (bool_decide (Kind c ≠ ConstraintKind.Disjunction)).
Qed.

(** [getSecondType] asserts exactly on the two group kinds. *)
Lemma getSecondType_asserts_iff c :
  getSecondType c = AssertionFailure ↔
  Kind c = ConstraintKind.Disjunction ∨ Kind c = ConstraintKind.Conjunction.
Proof.
  destruct c as [[] [] ?]; vm_compute;
    (split; [try done; by auto | by intros [|]]).
Qed.

(** C2. On an overload-binding constraint, whose payload has no second type,
    the assertion of [getSecondType] holds (the kind is neither
    [Disjunction] nor [Conjunction]), so the call does not stop there: it
    goes on to read [Types.Second] from a union whose [Overload] member is
    the one the constructor wrote. *)
Theorem getSecondType_BindOverload_does_not_assert
    (type : SwiftType) (choice : OverloadChoice) locator :
  ∃ c, Constraint_overload type choice locator = Returned c ∧
       Kind c = ConstraintKind.BindOverload ∧
       result not_group c = Returned true ∧
       getSecondType c = InactiveMember ∧
       getSecondType c ≠ AssertionFailure.
Proof. eexists. by repeat split. Qed.

(** *** Group constraints *)

Lemma Constraint_group_Returned kind constraints locator :
  kind = ConstraintKind.Conjunction ∨ kind = ConstraintKind.Disjunction →
  Constraint_group kind constraints locator =
  Returned (mkConstraint kind (Nested constraints) locator : Constraint).
Proof. by intros [-> | ->]. Qed.

(** The private constructor itself accepts any child list, the empty one
    included; it asserts on the kind only. *)
Lemma Constraint_group_asserts_iff kind constraints locator :
  (Constraint_group kind constraints locator : outcome Constraint)
    = AssertionFailure ↔
  kind ≠ ConstraintKind.Conjunction ∧ kind ≠ ConstraintKind.Disjunction.
Proof.
  destruct kind; vm_compute;
    (split; [try done; by intros _; split | by intros [? ?]]).
Qed.

Lemma deref_operator_new (cs : ConstraintSystem) c :
  deref (operator_new cs c).2 (operator_new cs c).1 = Some c.
Proof.
  unfold deref, operator_new, nullptr; cbn [fst snd arena].
  rewrite bool_decide_eq_false_2 by lia.
  replace (N.to_nat (N.pred (N.of_nat (S (length (arena cs))))))
    with (length (arena cs)) by lia.
  by rewrite list_lookup_middle.
Qed.

(** Allocation leaves the objects already in the arena where they are. *)
Lemma deref_operator_new_old (cs : ConstraintSystem) c p c0 :
  deref cs p = Some c0 → deref (operator_new cs c).2 p = Some c0.
Proof.
  unfold deref, operator_new; cbn [snd arena].
  case_bool_decide; [done|]. intros Hold. by apply lookup_app_l_Some.
Qed.

(** C3. Creating a conjunction or a disjunction over an empty child list
    fails with an assertion, in every constraint system and for every
    locator; and whenever a creation returns, the pointer it returns
    designates, in the resulting system, a group constraint of the requested
    kind that has at least one child. *)
Theorem create_group_empty_fails (cs : ConstraintSystem) locator :
  createConjunction cs [] locator = AssertionFailure ∧
  createDisjunction cs [] locator = AssertionFailure ∧
  ∀ kind constraints p cs',
    kind = ConstraintKind.Conjunction ∨ kind = ConstraintKind.Disjunction →
    createGroup kind cs constraints locator = Returned (p, cs') →
    ∃ c, deref cs' p = Some c ∧ Kind c = kind ∧
         U c = Nested constraints ∧ constraints ≠ [].
Proof.
  split; [done|]. split; [done|].
  intros kind constraints p cs' Hkind. unfold createGroup.
  case_bool_decide as Hne; [done|].
  rewrite (Constraint_group_Returned _ _ _ Hkind). cbn [outcome_map].
  intros [= <- <-].
  exists (mkConstraint kind (Nested constraints) locator).
  split; [|done].
  exact (deref_operator_new cs _).
Qed.

(** C4. Over a non-empty child list, the group constructor called with the
    kind [Conjunction] or [Disjunction] returns a constraint on which
    [getNestedConstraints] returns that very list (same pointers, same
    order) and [getKind] returns the kind given, both leaving the constraint
    as it is. *)
Theorem group_constraint_roundtrip kind constraints locator :
  constraints ≠ [] →
  kind = ConstraintKind.Conjunction ∨ kind = ConstraintKind.Disjunction →
  ∃ c, Constraint_group kind constraints locator = Returned c ∧
       getNestedConstraints c = Returned (constraints, c) ∧
       getKind c = Returned (kind, c).
Proof.
  intros _ Hkind. rewrite (Constraint_group_Returned _ _ _ Hkind).
  eexists. split; [done|]. by destruct Hkind as [-> | ->].
Qed.

(** *** Member constraints *)

Lemma hasMember_true_iff kind :
  hasMember kind = true ↔
  kind = ConstraintKind.ValueMember ∨ kind = ConstraintKind.TypeMember.
Proof.
  destruct kind; vm_compute;
    (split; [try done; by auto | by intros [|]]).
Qed.

Lemma getMember_unfold c :
  getMember c =
  if hasMember (Kind c) then read_Types_Member c else AssertionFailure.
Proof.
  unfold getMember, bind, read_Kind, assert, hasMember.
  by destruct (_ || _).
Qed.

(** C5. [getMember] fails its assertion on every constraint whose kind is
    neither [ValueMember] nor [TypeMember], the kind [Bind] for one; on a
    constraint of one of these two kinds, whose payload is the [Types]
    struct, it returns the member name stored there and leaves the
    constraint as it is. *)
Theorem getMember_spec c :
  (Kind c ≠ ConstraintKind.ValueMember →
   Kind c ≠ ConstraintKind.TypeMember →
   getMember c = AssertionFailure) ∧
  (Kind c = ConstraintKind.Bind → getMember c = AssertionFailure) ∧
  (∀ first second member,
     Kind c = ConstraintKind.ValueMember ∨ Kind c = ConstraintKind.TypeMember →
     U c = Types first second member →
     getMember c = Returned (member, c)).
Proof.
  rewrite getMember_unfold. repeat split.
  - intros H1 H2. destruct (hasMember (Kind c)) eqn:E; [|done].
    apply hasMember_true_iff in E. by destruct E.
  - by intros ->.
  - intros first second member Hk%hasMember_true_iff HU.
    rewrite Hk. unfold read_Types_Member. by rewrite HU.
Qed.

(** C9. [hasMember(kind)] is true exactly for [ValueMember] and
    [TypeMember] and false for the fourteen other kinds; and a constraint
    passes the assertion of [getMember] exactly when [hasMember] holds of its
    kind. *)
Theorem hasMember_spec kind c :
  (hasMember kind = true ↔
   kind = ConstraintKind.ValueMember ∨ kind = ConstraintKind.TypeMember) ∧
  (hasMember kind = false ↔
   kind ≠ ConstraintKind.ValueMember ∧ kind ≠ ConstraintKind.TypeMember) ∧
  (getMember c ≠ AssertionFailure ↔ hasMember (Kind c) = true).
Proof.
  split; [apply hasMember_true_iff|]. split.
  - rewrite <-not_true_iff_false, hasMember_true_iff. tauto.
  - rewrite getMember_unfold. unfold read_Types_Member.
    destruct (hasMember (Kind c)); [|naive_solver].
    by destruct (U c).
Qed.

(** *** Overload-binding constraints *)

(** C6. The constraint built by the overload-binding constructor from a
    type, an overload choice and a locator has the kind [BindOverload];
    [getFirstType] returns the type, [getOverloadChoice] the choice and
    [getLocator] the locator, each leaving the constraint as it is. *)
Theorem BindOverload_roundtrip
    (type : SwiftType) (choice : OverloadChoice) locator :
  ∃ c, Constraint_overload type choice locator = Returned c ∧
       getKind c = Returned (ConstraintKind.BindOverload, c) ∧
       getFirstType c = Returned (type, c) ∧
       getOverloadChoice c = Returned (choice, c) ∧
       getLocator c = Returned (locator, c).
Proof. eexists. by repeat split. Qed.

(** *** Locators *)

(** C7, as the code has it.  No constructor of the header looks at the
    locator: the overload-binding constructor and the group constructor
    store the pointer they are given, null or not, and [getLocator] returns
    the stored pointer.  So [getLocator] returns a non-null pointer exactly
    when the constraint was constructed with one. *)
Theorem getLocator_returns_constructor_argument
    (type : SwiftType) (choice : OverloadChoice) constraints locator :
  (∃ c, Constraint_overload type choice locator = Returned c ∧
        getLocator c = Returned (locator, c)) ∧
  (∃ c, Constraint_group ConstraintKind.Conjunction constraints locator
          = Returned c ∧
        getLocator c = Returned (locator, c)) ∧
  (∃ c, Constraint_group ConstraintKind.Disjunction constraints locator
          = Returned c ∧
        getLocator c = Returned (locator, c)) ∧
  (∀ c, getLocator c = Returned (Locator c, c)).
Proof. repeat split; by eexists. Qed.

(** *** Accessors do not mutate *)

Lemma readonly_getClassification :
  readonly (getClassification : Method _).
Proof.
  apply readonly_bind; [auto with readonly|].
  intros []; apply readonly_ret.
Qed.

Lemma readonly_getFirstType : readonly (getFirstType : Method _).
Proof. unfold getFirstType. auto 10 with readonly. Qed.

Lemma readonly_getSecondType : readonly (getSecondType : Method _).
Proof. unfold getSecondType. auto 10 with readonly. Qed.

Lemma readonly_getMember : readonly (getMember : Method _).
Proof. unfold getMember. auto 10 with readonly. Qed.

Lemma readonly_getNestedConstraints :
  readonly (getNestedConstraints : Method _).
Proof. unfold getNestedConstraints. auto 10 with readonly. Qed.

Lemma readonly_getOverloadChoice : readonly (getOverloadChoice : Method _).
Proof. unfold getOverloadChoice. auto 10 with readonly. Qed.

Lemma readonly_getLocator : readonly (getLocator : Method _).
Proof. apply readonly_read_Locator. Qed.

(** C8. Each of the eight accessors is read-only: a call that returns
    leaves the constraint exactly as it was, and the same accessor called
    again on it returns the same value.  [getKind], [getClassification] and
    [getLocator] moreover return on every constraint. *)
Theorem accessors_are_readonly :
  readonly (getKind : Method _) ∧
  readonly (getClassification : Method _) ∧
  readonly (getFirstType : Method _) ∧
  readonly (getSecondType : Method _) ∧
  readonly (getMember : Method _) ∧
  readonly (getNestedConstraints : Method _) ∧
  readonly (getOverloadChoice : Method _) ∧
  readonly (getLocator : Method _) ∧
  (∀ c, getKind c = Returned (Kind c, c)) ∧
  (∀ c, ∃ cl, getClassification c = Returned (cl, c)) ∧
  (∀ c, getLocator c = Returned (Locator c, c)).
Proof.
  split_and!;
    auto using readonly_getClassification, readonly_getFirstType,
      readonly_getSecondType, readonly_getMember,
      readonly_getNestedConstraints, readonly_getOverloadChoice,
      readonly_getLocator with readonly.
  intros c. destruct (getClassification_total c) as (cl & Hcl & _). eauto.
Qed.
End ConstraintFacts.

(** ** The lazy map adapters *)

Section LazyMapFacts.
Context {Base BaseIterator BaseElement Element : Type}.
Context `{!IteratorProtocol BaseIterator BaseElement}.
Context `{!Sequence Base BaseIterator}.
Implicit Types (it : LazyMapIterator.t BaseIterator BaseElement Element)
  (s : LazyMapSequence.t Base BaseElement Element).

Lemma LazyMapIterator_next_eq it :
  next it =
  (LazyMapIterator._transform it <$> (next (LazyMapIterator._base it)).1,
   LazyMapIterator.mk (next (LazyMapIterator._base it)).2
                      (LazyMapIterator._transform it)).
Proof.
  unfold next at 1, LazyMapIterator_IteratorProtocol, LazyMapIterator.next_.
  by destruct (next (LazyMapIterator._base it)).
Qed.

(** Call by call: the n first results of the adapter are those of its base,
    each passed through the transform. *)
Lemma nexts_LazyMapIterator n it :
  nexts n it =
  fmap (M:=list) (fmap (M:=option) (LazyMapIterator._transform it))
    (nexts n (LazyMapIterator._base it)).
Proof.
  revert it. induction n as [|n IH]; intros [b f]; [done|].
  cbn [nexts]. rewrite LazyMapIterator_next_eq. cbn.
  destruct (next b) as [element b']. cbn. by rewrite IH.
Qed.

(** Up to the first [nil]: the adapter ends when its base ends, with the
    same fuel, having yielded the transformed elements in order. *)
Lemma elements_LazyMapIterator fuel it :
  elements fuel it =
  fmap (M:=option) (fmap (M:=list) (LazyMapIterator._transform it))
    (elements fuel (LazyMapIterator._base it)).
Proof.
  revert it. induction fuel as [|fuel IH]; intros [b f]; [done|].
  cbn [elements]. rewrite LazyMapIterator_next_eq. cbn.
  destruct (next b) as [[x|] b']; cbn; [|done].
  rewrite IH. cbn. by destruct (elements fuel b').
Qed.

(** C10. [LazyMapIterator.next()] returns [nil] exactly when the [next()] of
    its base does, and otherwise the transform of the element the base
    produced, the base having advanced by that one call.  Hence the iterator
    that [LazyMapSequence.makeIterator()] returns produces, call after call,
    the transform of what the base sequence's iterator produces; when the
    base sequence ends after the elements [xs], it ends after exactly
    [transform x] for each [x] of [xs], in the same order. *)
Theorem LazyMap_yields_transformed_elements it s :
  ((next it).1 = None ↔ (next (LazyMapIterator._base it)).1 = None) ∧
  (∀ x, (next (LazyMapIterator._base it)).1 = Some x →
        (next it).1 = Some (LazyMapIterator._transform it x)) ∧
  (next it).2 = LazyMapIterator.mk (next (LazyMapIterator._base it)).2
                                   (LazyMapIterator._transform it) ∧
  (∀ n, nexts n (makeIterator s) =
        fmap (M:=list) (fmap (M:=option) (LazyMapSequence._transform s))
          (nexts n (makeIterator (LazyMapSequence._base s)))) ∧
  (∀ fuel xs,
     elements fuel (makeIterator (LazyMapSequence._base s)) = Some xs →
     elements fuel (makeIterator s) =
     Some (LazyMapSequence._transform s <$> xs)) ∧
  (∀ fuel,
     elements fuel (makeIterator (LazyMapSequence._base s)) = None →
     elements fuel (makeIterator s) = None).
Proof.
  rewrite LazyMapIterator_next_eq. cbn [fst snd]. split_and!.
  - by rewrite fmap_None.
  - by intros x ->.
  - done.
  - intros n. apply nexts_LazyMapIterator.
  - intros fuel xs Hxs.
    rewrite (elements_LazyMapIterator fuel (makeIterator s)).
    unfold makeIterator at 1, LazyMapSequence_Sequence,
      LazyMapSequence.makeIterator_.
    cbn. by rewrite Hxs.
  - intros fuel Hnone.
    rewrite (elements_LazyMapIterator fuel (makeIterator s)).
    unfold makeIterator at 1, LazyMapSequence_Sequence,
      LazyMapSequence.makeIterator_.
    cbn. by rewrite Hnone.
Qed.
End LazyMapFacts.

(** ** The properties on concrete constraints and sequences

    Types are numbered, member names are strings and overload choices are
    numbered. *)

Lemma create_group_empty_fails_witness :
  createDisjunction (mkConstraintSystem []) [] 5%N
    = (AssertionFailure
        : outcome (ptr * ConstraintSystem nat string nat)) ∧
  ∃ c : Constraint nat string nat,
    deref (mkConstraintSystem
             [mkConstraint ConstraintKind.Disjunction (Nested [4%N; 2%N]) 5%N])
          1%N = Some c ∧
    Kind c = ConstraintKind.Disjunction ∧
    U c = Nested [4%N; 2%N] ∧
    [4%N; 2%N] ≠ [].
Proof.
  destruct (create_group_empty_fails
              (SwiftType:=nat) (Identifier:=string) (OverloadChoice:=nat)
              (mkConstraintSystem []) 5%N) as (_ & Hempty & Hcreated).
  split; [exact Hempty|].
  apply (Hcreated ConstraintKind.Disjunction [4%N; 2%N]);
    [right; reflexivity | reflexivity].
Defined.

Lemma group_constraint_roundtrip_witness :
  ∃ c : Constraint nat string nat,
    Constraint_group ConstraintKind.Conjunction [3%N; 1%N; 2%N] 7%N
      = Returned c ∧
    getNestedConstraints c = Returned ([3%N; 1%N; 2%N], c) ∧
    getKind c = Returned (ConstraintKind.Conjunction, c).
Proof.
  apply (group_constraint_roundtrip ConstraintKind.Conjunction
           [3%N; 1%N; 2%N] 7%N);
    [discriminate | left; reflexivity].
Defined.

Lemma getMember_spec_witness :
  getMember (mkConstraint ConstraintKind.ValueMember
               (Types 1 2 "count"%string) 7%N)
    = Returned ("count"%string,
                mkConstraint ConstraintKind.ValueMember
                  (Types 1 2 "count"%string) 7%N
                : Constraint nat string nat) ∧
  getMember (mkConstraint ConstraintKind.Bind (Types 1 2 ""%string) 7%N
             : Constraint nat string nat)
    = AssertionFailure.
Proof.
  split.
  - apply (proj2 (proj2 (getMember_spec
             (mkConstraint ConstraintKind.ValueMember
                (Types 1 2 "count"%string) 7%N))) 1 2 "count"%string);
      [left; reflexivity | reflexivity].
  - apply (proj1 (proj2 (getMember_spec
             (mkConstraint ConstraintKind.Bind (Types 1 2 ""%string) 7%N))));
      reflexivity.
Defined.

Lemma accessors_are_readonly_witness :
  let c : Constraint nat string nat :=
    mkConstraint ConstraintKind.BindOverload (Overload 1 4) 7%N in
  c = c ∧ getOverloadChoice c = Returned (4, c).
Proof.
  intros c.
  apply (proj1 (proj2 (proj2 (proj2 (proj2 (proj2 (proj2
           (accessors_are_readonly
              (SwiftType:=nat) (Identifier:=string) (OverloadChoice:=nat)))))))) c 4 c);
    reflexivity.
Defined.

Lemma LazyMap_yields_transformed_elements_witness :
  (next (LazyMapIterator.mk [10; 20; 30] (λ x : nat, x + 1))).1 = Some 11 ∧
  elements 4 (makeIterator (LazyMapSequence.mk [10; 20; 30] (λ x : nat, x + 1)))
    = Some [11; 21; 31].
Proof.
  pose proof (LazyMap_yields_transformed_elements
                (LazyMapIterator.mk [10; 20; 30] (λ x : nat, x + 1))
                (LazyMapSequence.mk [10; 20; 30] (λ x : nat, x + 1)))
    as (_ & Hsome & _ & _ & Helements & _).
  split.
  - apply (Hsome 10). reflexivity.
  - apply (Helements 4 [10; 20; 30]). reflexivity.
Defined.

(** The locator claim of the specification at a null locator: the
    overload-binding constructor, given the null pointer, does not fail an
    assertion; it returns a constraint whose [getLocator] is the null
    pointer.  The same holds of the group constructor. *)
Lemma null_locator_is_accepted :
  (Constraint_overload 1 4 nullptr : outcome (Constraint nat string nat))
    ≠ AssertionFailure ∧
  (∃ c : Constraint nat string nat,
     Constraint_overload 1 4 nullptr = Returned c ∧
     result getLocator c = Returned nullptr) ∧
  (∃ c : Constraint nat string nat,
     Constraint_group ConstraintKind.Disjunction [3%N] nullptr = Returned c ∧
     result getLocator c = Returned nullptr).
Proof. split; [done|]. split; by eexists. Qed.

(** ** Further properties of the accessors *)

Section ConstraintAccessorFacts.
Context {SwiftType Identifier OverloadChoice : Type}.
Local Abbreviation Constraint := (Constraint SwiftType Identifier OverloadChoice).
Local Abbreviation Method := (Method SwiftType Identifier OverloadChoice).
Implicit Types (this c : Constraint) (kind : ConstraintKind.t).

Lemma getFirstType_unfold c :
  getFirstType c =
  if bool_decide (Kind c ≠ ConstraintKind.Disjunction) &&
     bool_decide (Kind c ≠ ConstraintKind.Conjunction)
  then if bool_decide (Kind c = ConstraintKind.BindOverload)
       then read_Overload_First c
       else read_Types_First c
  else AssertionFailure.
Proof.
  unfold getFirstType, bind. rewrite not_group_value.
  unfold assert, getKind, read_Kind.
  destruct (_ && _); [|done]. by destruct (bool_decide _).
Qed.

Lemma getSecondType_unfold c :
  getSecondType c =
  if bool_decide (Kind c ≠ ConstraintKind.Disjunction) &&
     bool_decide (Kind c ≠ ConstraintKind.Conjunction)
  then read_Types_Second c
  else AssertionFailure.
Proof.
  unfold getSecondType, bind. rewrite not_group_value.
  unfold assert. by destruct (_ && _).
Qed.

(** X1. Each accessor fails its assertion on an exact set of kinds, whatever
    the payload and the locator: [getFirstType] and [getSecondType] on the
    two group kinds and no other, [getNestedConstraints] on every kind but
    those two, [getOverloadChoice] on every kind but [BindOverload],
    [getMember] on every kind but the two member kinds.  So on any
    constraint [getNestedConstraints] passes its assertion exactly when
    [getFirstType] fails its own. *)
Theorem accessor_assertions_exact c :
  let group := Kind c = ConstraintKind.Conjunction ∨
               Kind c = ConstraintKind.Disjunction in
  (getFirstType c = AssertionFailure ↔ group) ∧
  (getSecondType c = AssertionFailure ↔ group) ∧
  (getNestedConstraints c = AssertionFailure ↔ ¬ group) ∧
  (getOverloadChoice c = AssertionFailure ↔
     Kind c ≠ ConstraintKind.BindOverload) ∧
  (getMember c = AssertionFailure ↔
     Kind c ≠ ConstraintKind.ValueMember ∧
     Kind c ≠ ConstraintKind.TypeMember) ∧
  (getNestedConstraints c ≠ AssertionFailure ↔
     getFirstType c = AssertionFailure).
Proof.
  destruct c as [[] [] ?]; vm_compute; split_and!; intuition congruence.
Qed.

(** X2. A constraint returned by a constructor of the header keeps kind and
    payload in step: on it no accessor but [getSecondType] ever reads a
    union member other than the one the constructor wrote, and
    [getSecondType] does so exactly on the overload-binding constraints. *)
Theorem constructed_constraint_reads c :
  constructed c →
  getFirstType c ≠ InactiveMember ∧
  getMember c ≠ InactiveMember ∧
  getNestedConstraints c ≠ InactiveMember ∧
  getOverloadChoice c ≠ InactiveMember ∧
  (getSecondType c = InactiveMember ↔
     Kind c = ConstraintKind.BindOverload).
Proof.
  intros [(kind & constraints & locator & Hc) | (type & choice & locator & Hc)].
  - unfold Constraint_group in Hc.
    destruct kind; cbn in Hc; try discriminate; injection Hc as <-;
      vm_compute; by split_and!; try split.
  - injection Hc as <-. vm_compute. by split_and!; try split.
Qed.

(** X3. On a constraint whose payload is the [Types] struct and whose kind
    is neither a group kind nor [BindOverload], [getFirstType] returns the
    first type and [getSecondType] the second, each leaving the constraint
    as it is. *)
Theorem getFirstType_getSecondType_Types c first second member :
  U c = Types first second member →
  Kind c ≠ ConstraintKind.Conjunction →
  Kind c ≠ ConstraintKind.Disjunction →
  Kind c ≠ ConstraintKind.BindOverload →
  getFirstType c = Returned (first, c) ∧
  getSecondType c = Returned (second, c).
Proof.
  intros HU Hc Hd Hb.
  rewrite getFirstType_unfold, getSecondType_unfold.
  rewrite !bool_decide_eq_true_2 by done.
  rewrite bool_decide_eq_false_2 by done. cbn.
  unfold read_Types_First, read_Types_Second. by rewrite HU.
Qed.

(** X4. The classification and the static predicate agree on the member
    kinds: [getClassification] returns [Member] exactly on the constraints
    of whose kind [hasMember] is true, that is exactly on those that pass
    the assertion of [getMember]. *)
Theorem getClassification_Member_iff_hasMember c :
  (getClassification c = Returned (ConstraintClassification.Member, c) ↔
   hasMember (Kind c) = true) ∧
  (getClassification c = Returned (ConstraintClassification.Member, c) ↔
   getMember c ≠ AssertionFailure).
Proof.
  destruct c as [[] [] ?]; vm_compute; split_and!; intuition congruence.
Qed.
End ConstraintAccessorFacts.

(** ** Further properties of the lazy map adapters *)

Section LazyMapIteratorFacts.
Context {BaseIterator A B : Type}.
Context `{!IteratorProtocol BaseIterator A}.
Implicit Types (it : LazyMapIterator.t BaseIterator A B).

Lemma advance_LazyMapIterator n it :
  advance n it =
  LazyMapIterator.mk (advance n (LazyMapIterator._base it))
                     (LazyMapIterator._transform it).
Proof.
  revert it. induction n as [|n IH]; intros [b f]; [done|].
  cbn [advance]. rewrite LazyMapIterator_next_eq. cbn [snd]. by rewrite IH.
Qed.

(** X5. The adapter advances its base in lock step and never changes its
    transform: after any number of calls of [next()], [base] is the base
    iterator after as many calls of its own [next()], the transform is the
    one the adapter started with, and the next call returns the transform of
    what the base would return then. *)
Theorem LazyMapIterator_lock_step n it :
  LazyMapIterator.base (advance n it) = advance n (LazyMapIterator.base it) ∧
  LazyMapIterator._transform (advance n it) = LazyMapIterator._transform it ∧
  (next (advance n it)).1 =
    LazyMapIterator._transform it <$>
      (next (advance n (LazyMapIterator.base it))).1.
Proof.
  rewrite advance_LazyMapIterator, LazyMapIterator_next_eq. by split_and!.
Qed.

Lemma nexts_nil_lookup n it i :
  nexts n it !! i = Some None ↔
  nexts n (LazyMapIterator._base it) !! i = Some None.
Proof.
  rewrite nexts_LazyMapIterator, list_lookup_fmap.
  destruct (nexts n (LazyMapIterator._base it) !! i) as [[x|]|]; cbn;
    split; (done || congruence).
Qed.

(** X6. The adapter keeps the contract of [next()] exactly when its base
    does: once [nil] has been returned every later call returns [nil], for
    the adapter if and only if for the base iterator. *)
Theorem LazyMapIterator_nil_is_final it :
  nil_is_final it ↔ nil_is_final (LazyMapIterator._base it).
Proof.
  unfold nil_is_final. split; intros Hfinal n i j Hij Hj Hi.
  - apply nexts_nil_lookup. apply (Hfinal n i j Hij Hj).
    by apply nexts_nil_lookup.
  - apply nexts_nil_lookup. apply (Hfinal n i j Hij Hj).
    by apply nexts_nil_lookup.
Qed.
End LazyMapIteratorFacts.

Section LazyMapFusion.
Context {Self Base BaseIterator A B C : Type}.
Context `{!IteratorProtocol BaseIterator A}.
Context `{!Sequence Base BaseIterator}.
Context `{!LazySequenceProtocol.t Self Base}.

Lemma nexts_LazyMapIterator_twice n (b : BaseIterator) (f : A → B) (g : B → C) :
  nexts n (LazyMapIterator.mk (LazyMapIterator.mk b f) g) =
  nexts n (LazyMapIterator.mk b (g ∘ f)).
Proof.
  rewrite !nexts_LazyMapIterator. cbn.
  rewrite <-list_fmap_compose. apply list_fmap_ext. by intros _ [x|] _.
Qed.

Lemma elements_LazyMapIterator_twice fuel (b : BaseIterator)
    (f : A → B) (g : B → C) :
  elements fuel (LazyMapIterator.mk (LazyMapIterator.mk b f) g) =
  elements fuel (LazyMapIterator.mk b (g ∘ f)).
Proof.
  rewrite !elements_LazyMapIterator. cbn.
  destruct (elements fuel b) as [xs|]; cbn; [|done].
  by rewrite <-list_fmap_compose.
Qed.

(** X7. [map] on a lazy sequence yields the transform of each element of
    the sequence's [elements], in order, and ends when they end; and mapping
    twice is mapping once with the composed transform: the sequence
    [LazyMapSequence(_base: s.map(f), transform: g)] produces, call by call
    and up to its end, what [s.map(g after f)] produces. *)
Theorem LazySequenceProtocol_map_fusion
    (self : Self) (f : A → B) (g : B → C) n :
  elements n (makeIterator (LazySequenceProtocol.map self f)) =
    fmap (M:=option) (fmap (M:=list) f)
      (elements n (makeIterator (LazySequenceProtocol.elements self))) ∧
  nexts n (makeIterator
             (LazyMapSequence.init (LazySequenceProtocol.map self f) g)) =
    nexts n (makeIterator (LazySequenceProtocol.map self (g ∘ f))) ∧
  elements n (makeIterator
                (LazyMapSequence.init (LazySequenceProtocol.map self f) g)) =
    elements n (makeIterator (LazySequenceProtocol.map self (g ∘ f))).
Proof.
  split_and!.
  - by rewrite (elements_LazyMapIterator n
                  (makeIterator (LazySequenceProtocol.map self f))).
  - apply nexts_LazyMapIterator_twice.
  - apply elements_LazyMapIterator_twice.
Qed.

(** X8. [underestimatedCount] keeps its documented bound: when the base
    sequence ends after the elements [xs] and its [underestimatedCount] is
    at most their number, the mapped sequence ends after as many elements
    and its [underestimatedCount] is at most that number. *)
Theorem LazyMapSequence_underestimatedCount_bound
    `{!UnderestimatedCount Base}
    (s : LazyMapSequence.t Base A B) fuel xs :
  elements fuel (makeIterator (LazyMapSequence._base s)) = Some xs →
  (underestimatedCount (LazyMapSequence._base s) ≤ Z.of_nat (length xs))%Z →
  ∃ ys, elements fuel (makeIterator s) = Some ys ∧
        length ys = length xs ∧
        (underestimatedCount s ≤ Z.of_nat (length ys))%Z.
Proof.
  intros Hxs Hbound. exists (LazyMapSequence._transform s <$> xs).
  rewrite length_fmap. split_and!; [|done|done].
  rewrite (elements_LazyMapIterator fuel (makeIterator s)).
  unfold makeIterator at 1, LazyMapSequence_Sequence,
    LazyMapSequence.makeIterator_.
  cbn. by rewrite Hxs.
Qed.
End LazyMapFusion.

Section LazyMapCollectionFacts.
Context {Self Base BaseIterator Index Indices A B : Type}.
Context `{!Collection.t Base Index A Indices}.
Context `{!EqDecision Index}.
Implicit Types (c : LazyMapCollection.t Base A B).

Lemma subscripts_LazyMapCollection fuel c i :
  subscripts fuel c i =
  fmap (M:=option) (fmap (M:=list) (LazyMapCollection._transform c))
    (subscripts fuel (LazyMapCollection._base c) i).
Proof.
  revert i. induction fuel as [|fuel IH]; intros i; [done|].
  cbn [subscripts]. cbn [Collection.endIndex Collection.subscript
    Collection.index_after LazyMapCollection_Collection].
  unfold LazyMapCollection.endIndex, LazyMapCollection.subscript,
    LazyMapCollection.index_after.
  case_decide; [done|].
  destruct (Collection.subscript (LazyMapCollection._base c) i) as [x|];
    cbn; [|done].
  rewrite IH. by destruct (subscripts fuel _ _).
Qed.

(** X9. Read by subscript from its [startIndex] to its [endIndex], stepping
    with [index(after:)], a lazy map collection gives the transform of what
    its base gives read the same way, element by element and in order; it
    reaches the end in as many steps, and fails where a subscript of the
    base fails.  So does the collection that [map] returns, over the
    [elements] of the collection mapped. *)
Theorem LazyMapCollection_subscripts
    `{!LazySequenceProtocol.t Self Base} c (self : Self) (f : A → B) fuel :
  subscripts fuel c (Collection.startIndex c) =
    fmap (M:=option) (fmap (M:=list) (LazyMapCollection._transform c))
      (subscripts fuel (LazyMapCollection._base c)
         (Collection.startIndex (LazyMapCollection._base c))) ∧
  subscripts fuel (LazyCollectionProtocol.map self f)
      (Collection.startIndex (LazyCollectionProtocol.map self f)) =
    fmap (M:=option) (fmap (M:=list) f)
      (subscripts fuel (LazySequenceProtocol.elements self)
         (Collection.startIndex (LazySequenceProtocol.elements self))).
Proof.
  split.
  - apply subscripts_LazyMapCollection.
  - by rewrite subscripts_LazyMapCollection.
Qed.

(** X10. [first] and [last] stay in step with the subscript: when the base's
    [first] is [nil] if it is empty and its element at [startIndex]
    otherwise, the same holds of the lazy map collection; and likewise of
    [last] and the element at the index before [endIndex]. *)
Theorem LazyMapCollection_first_last
    `{!BidirectionalCollection.t Base Index A} c :
  let b := LazyMapCollection._base c in
  (Collection.first b =
     (if Collection.isEmpty b then None
      else Collection.subscript b (Collection.startIndex b)) →
   Collection.first c =
     (if Collection.isEmpty c then None
      else Collection.subscript c (Collection.startIndex c))) ∧
  (BidirectionalCollection.last b =
     (if Collection.isEmpty b then None
      else Collection.subscript b
             (BidirectionalCollection.index_before b (Collection.endIndex b))) →
   BidirectionalCollection.last c =
     (if Collection.isEmpty c then None
      else Collection.subscript c
             (BidirectionalCollection.index_before c (Collection.endIndex c)))).
Proof.
  cbn. unfold LazyMapCollection.first, LazyMapCollection.last,
    LazyMapCollection.isEmpty, LazyMapCollection.subscript,
    LazyMapCollection.startIndex, LazyMapCollection.endIndex,
    LazyMapCollection.index_before.
  split; intros ->; by destruct (Collection.isEmpty _).
Qed.

(** X11. Iterating a lazy map collection and subscripting it index by index
    agree when they agree on the base: if the base's iterator yields, up to
    its end, the elements read by subscript from [startIndex] to
    [endIndex], then so does the iterator that the lazy map collection's
    [makeIterator()] returns. *)
Theorem LazyMapCollection_iteration_matches_subscripts
    `{!IteratorProtocol BaseIterator A} `{!Sequence Base BaseIterator}
    c fuel :
  let b := LazyMapCollection._base c in
  elements fuel (makeIterator b) = subscripts fuel b (Collection.startIndex b) →
  elements fuel (makeIterator c) = subscripts fuel c (Collection.startIndex c).
Proof.
  intros b Hb.
  rewrite (elements_LazyMapIterator fuel (makeIterator c)).
  rewrite subscripts_LazyMapCollection.
  f_equal. exact Hb.
Qed.

(** X12. [count] and [underestimatedCount] of a lazy map collection stay
    right when the base's are: if the base read by subscript has the
    elements [xs], its [count] is their number and its
    [underestimatedCount] at most that number, then the lazy map collection
    read by subscript has as many elements, [count] is their number and
    [underestimatedCount] is at most it. *)
Theorem LazyMapCollection_count `{!UnderestimatedCount Base} c fuel xs :
  let b := LazyMapCollection._base c in
  subscripts fuel b (Collection.startIndex b) = Some xs →
  Collection.count b = Z.of_nat (length xs) →
  (underestimatedCount b ≤ Z.of_nat (length xs))%Z →
  ∃ ys, subscripts fuel c (Collection.startIndex c) = Some ys ∧
        Collection.count c = Z.of_nat (length ys) ∧
        (underestimatedCount c ≤ Z.of_nat (length ys))%Z.
Proof.
  intros b Hxs Hcount Hunder.
  exists (LazyMapCollection._transform c <$> xs).
  rewrite length_fmap. split_and!; [|done|done].
  rewrite subscripts_LazyMapCollection.
  change (subscripts fuel (LazyMapCollection._base c)
            (Collection.startIndex c))
    with (subscripts fuel b (Collection.startIndex b)).
  by rewrite Hxs.
Qed.
End LazyMapCollectionFacts.

(** ** The further properties on concrete constraints and collections *)

Lemma nexts_list_nil {A} n : nexts n ([] : list A) = replicate n None.
Proof. induction n as [|n IH]; [done|]. cbn. by rewrite IH. Qed.

(** An array iterated from its front keeps the contract of [next()]. *)
Lemma list_nil_is_final {A} (l : list A) : nil_is_final l.
Proof.
  intros n. revert l. induction n as [|n IH]; intros l i j Hij Hj Hi; [lia|].
  destruct l as [|x l].
  - change (nexts (S n) []) with (None :: nexts n ([] : list A)).
    rewrite nexts_list_nil.
    change (None :: replicate n None) with (replicate (S n) (@None A)).
    by apply lookup_replicate_2.
  - change (nexts (S n) (x :: l)) with (Some x :: nexts n l) in *.
    destruct i as [|i]; [done|]. destruct j as [|j]; [lia|].
    cbn in *. apply (IH l i j); [lia|lia|done].
Qed.

Lemma constructed_constraint_reads_witness :
  let c : Constraint nat string nat :=
    mkConstraint ConstraintKind.BindOverload (Overload 1 4) 7%N in
  getFirstType c ≠ InactiveMember ∧
  getMember c ≠ InactiveMember ∧
  getNestedConstraints c ≠ InactiveMember ∧
  getOverloadChoice c ≠ InactiveMember ∧
  (getSecondType c = InactiveMember ↔
     Kind c = ConstraintKind.BindOverload).
Proof.
  intros c. apply (constructed_constraint_reads c).
  right. exists 1, 4, 7%N. reflexivity.
Defined.

Lemma getFirstType_getSecondType_Types_witness :
  let c : Constraint nat string nat :=
    mkConstraint ConstraintKind.Subtype (Types 1 2 ""%string) 7%N in
  getFirstType c = Returned (1, c) ∧ getSecondType c = Returned (2, c).
Proof.
  intros c.
  apply (getFirstType_getSecondType_Types c 1 2 ""%string);
    [reflexivity | discriminate..].
Defined.

Lemma LazyMapIterator_nil_is_final_witness :
  nil_is_final (LazyMapIterator.mk [10; 20] (λ x : nat, x + 1)).
Proof.
  apply (proj2 (LazyMapIterator_nil_is_final
                  (LazyMapIterator.mk [10; 20] (λ x : nat, x + 1)))).
  apply list_nil_is_final.
Defined.

Lemma LazyMapSequence_underestimatedCount_bound_witness :
  let s := LazyMapSequence.mk [10; 20; 30] (λ x : nat, x + 1) in
  ∃ ys, elements 4 (makeIterator s) = Some ys ∧
        length ys = 3 ∧
        (underestimatedCount s ≤ Z.of_nat (length ys))%Z.
Proof.
  intros s.
  apply (LazyMapSequence_underestimatedCount_bound s 4 [10; 20; 30]);
    [reflexivity | vm_compute; discriminate].
Defined.

Lemma LazyMapCollection_first_last_witness :
  let c := LazyMapCollection.mk [10; 20; 30] (λ x : nat, x + 1) in
  Collection.first c =
    (if Collection.isEmpty c then None
     else Collection.subscript c (Collection.startIndex c)) ∧
  BidirectionalCollection.last c =
    (if Collection.isEmpty c then None
     else Collection.subscript c
            (BidirectionalCollection.index_before c (Collection.endIndex c))).
Proof.
  intros c. split.
  - apply (proj1 (LazyMapCollection_first_last c)). reflexivity.
  - apply (proj2 (LazyMapCollection_first_last c)). reflexivity.
Defined.

Lemma LazyMapCollection_iteration_matches_subscripts_witness :
  let c := LazyMapCollection.mk [10; 20; 30] (λ x : nat, x + 1) in
  elements 4 (makeIterator c) = subscripts 4 c (Collection.startIndex c).
Proof.
  intros c.
  apply (LazyMapCollection_iteration_matches_subscripts c 4). reflexivity.
Defined.

Lemma LazyMapCollection_count_witness :
  let c := LazyMapCollection.mk [10; 20; 30] (λ x : nat, x + 1) in
  ∃ ys, subscripts 4 c (Collection.startIndex c) = Some ys ∧
        Collection.count c = Z.of_nat (length ys) ∧
        (underestimatedCount c ≤ Z.of_nat (length ys))%Z.
Proof.
  intros c.
  apply (LazyMapCollection_count c 4 [10; 20; 30]);
    [reflexivity | reflexivity | vm_compute; discriminate].
Defined.
